(** * AutoComm: a shallow embedding of the front-end helpers of
    [static/js/main.js] and of the shared [Utils]/[ThemeManager] script,
    together with a model of the capability orchestration layer
    (chunking, engine registry, attempt executor, fallback chain and
    orchestrator façade). *)

From Stdlib Require Import ZArith QArith Qround SpecFloat.
From Stdlib Require Import List Permutation Sorted Arith Lia.
From Stdlib Require Import String Ascii DecimalString.
Import ListNotations.

(* ================================================================= *)
(** ** Part I: definitions *)
(* ================================================================= *)

(* ----------------------------------------------------------------- *)
(** *** JavaScript numbers (IEEE-754 binary64) *)

(** JS numbers are binary64 values; arithmetic is correctly rounded to
    nearest, ties to even.  We use the executable IEEE specification of
    the Standard Library, instantiated at precision 53 and [emax = 1024]. *)
Definition js_prec : Z := 53.
Definition js_emax : Z := 1024.

Definition js_mul : spec_float -> spec_float -> spec_float := SFmul js_prec js_emax.
Definition js_div : spec_float -> spec_float -> spec_float := SFdiv js_prec js_emax.

(** The JS number nearest to an integer (exact below 2^53). *)
Definition js_of_Z (z : Z) : spec_float := binary_normalize js_prec js_emax z 0 false.

(** The exact rational value of a finite JS number. *)
Definition js_value (f : spec_float) : Q :=
  match f with
  | S754_finite s m e =>
      let q := Qmult (inject_Z (Zpos m)) (Qpower (2 # 1) e) in
      if s then Qopp q else q
  | _ => 0%Q
  end.

(** [Math.round(v)]: the integer nearest to [v], ties towards +oo. *)
Definition math_round (q : Q) : Z := Qfloor (Qplus q (1 # 2)).

(** [v.toFixed(2)] for [0 <= v < 1e21] is the decimal string of [n / 100]
    where [n] is the integer for which [n / 100 - v] is closest to zero
    (the larger one on a tie), computed on the exact value of [v].  We
    keep that integer [n]; [parseFloat] of the string ["n/100"] is the JS
    number nearest to [n / 100], i.e. [js_div (js_of_Z n) (js_of_Z 100)]. *)
Definition to_fixed2_hundredths (v : spec_float) : Z :=
  Qfloor (Qplus (Qmult (inject_Z 100) (js_value v)) (1 # 2)).

(** [Math.floor(Math.log(bytes) / Math.log(1024))], for [bytes >= 1],
    taken as the integer logarithm in base 1024 ([floor(log2 b / 10)]).
    Both implementations of [formatFileSize] evaluate the very same
    expression, so the comparison below does not depend on this choice. *)
Definition size_index (bytes : Z) : Z := (Z.log2 bytes / 10)%Z.

(** [sizes[i]] for [const sizes = ['Bytes', 'KB', 'MB', 'GB']]; an index
    out of range yields [undefined], rendered ["undefined"] by [+]. *)
Definition sizes : list string := ["Bytes"; "KB"; "MB"; "GB"]%string.

Definition size_label (i : Z) : string :=
  if Z.ltb i 0 then "undefined"%string
  else nth (Z.to_nat i) sizes "undefined"%string.

(** The value of [number + ' ' + label]: JS renders the number with
    [Number::toString], which maps distinct finite numbers to distinct
    strings (it is the shortest decimal that reads back as the number).
    We keep the number and the label. *)
Record SizeText := mkSizeText { st_number : spec_float; st_label : string }.

(** [bytes / Math.pow(k, i)], shared by both implementations. *)
Definition scaled (bytes : Z) : spec_float :=
  js_div (js_of_Z bytes) (js_of_Z (1024 ^ size_index bytes)%Z).

(** [formatFileSize] of [static/js/main.js]:
<<
    if (bytes === 0) return '0 Bytes';
    const i = Math.floor(Math.log(bytes) / Math.log(k));
    return parseFloat((bytes / Math.pow(k, i)).toFixed(2)) + ' ' + sizes[i];
>> *)
Definition formatFileSize_main (bytes : Z) : SizeText :=
  if Z.eqb bytes 0 then mkSizeText (S754_zero false) "Bytes"
  else
    let n := to_fixed2_hundredths (scaled bytes) in
    mkSizeText (js_div (js_of_Z n) (js_of_Z 100)) (size_label (size_index bytes)).

(** [Utils.formatFileSize] of the shared script:
<<
    if (bytes === 0) return '0 Bytes';
    const i = Math.floor(Math.log(bytes) / Math.log(k));
    return Math.round(bytes / Math.pow(k, i) * 100) / 100 + ' ' + sizes[i];
>> *)
Definition formatFileSize_utils (bytes : Z) : SizeText :=
  if Z.eqb bytes 0 then mkSizeText (S754_zero false) "Bytes"
  else
    let m := math_round (js_value (js_mul (scaled bytes) (js_of_Z 100))) in
    mkSizeText (js_div (js_of_Z m) (js_of_Z 100)) (size_label (size_index bytes)).

(** The product [(bytes / 1024^i) * 100] is computed without rounding. *)
Definition scaled_product_exact (bytes : Z) : Prop :=
  Qeq (js_value (js_mul (scaled bytes) (js_of_Z 100)))
      (Qmult (inject_Z 100) (js_value (scaled bytes))).

(* ----------------------------------------------------------------- *)
(** *** Theme switching ([static/js/main.js]) *)

(** The page state touched by [toggleTheme]: the global [currentTheme],
    the [data-theme] attribute of [document.body], the class of the
    theme toggle icon (when the page has one) and [localStorage]. *)
Record PageState := mkPage {
  currentTheme : string;
  body_data_theme : option string;
  toggle_icon_class : option string;
  local_storage : list (string * string)
}.

(** [localStorage.setItem(k, v)]. *)
Definition storage_set (k v : string) (st : list (string * string))
  : list (string * string) :=
  (k, v) :: filter (fun kv => negb (String.eqb (fst kv) k)) st.

(** [applyTheme(theme)]: sets [data-theme] on the body and, when the
    toggle button has an icon, its class. *)
Definition applyTheme (theme : string) (s : PageState) : PageState :=
  mkPage (currentTheme s) (Some theme)
    (match toggle_icon_class s with
     | Some _ => Some (if String.eqb theme "light" then "fas fa-moon" else "fas fa-sun")%string
     | None => None
     end)
    (local_storage s).

(** [toggleTheme()]:
<<
    currentTheme = currentTheme === 'light' ? 'dark' : 'light';
    applyTheme(currentTheme);
    localStorage.setItem('autocomm-theme', currentTheme);
>> *)
Definition toggleTheme (s : PageState) : PageState :=
  let t := if String.eqb (currentTheme s) "light" then "dark"%string else "light"%string in
  let s1 := mkPage t (body_data_theme s) (toggle_icon_class s) (local_storage s) in
  let s2 := applyTheme t s1 in
  mkPage (currentTheme s2) (body_data_theme s2) (toggle_icon_class s2)
    (storage_set "autocomm-theme" t (local_storage s2)).

(* ----------------------------------------------------------------- *)
(** *** [formatText] ([static/js/main.js]) *)

(** The JS values [formatText] may receive as [text]. Numbers are kept
    to the integers. *)
Inductive JsValue :=
| JsUndefined
| JsNull
| JsBool (b : bool)
| JsInt (z : Z)
| JsString (s : string).

(** JS truthiness ([!text] is its negation). *)
Definition truthy (v : JsValue) : bool :=
  match v with
  | JsUndefined | JsNull => false
  | JsBool b => b
  | JsInt z => negb (Z.eqb z 0)
  | JsString s => negb (String.eqb s "")
  end.

(** [text.toString()] (only called on truthy values). *)
Definition js_to_string (v : JsValue) : string :=
  match v with
  | JsUndefined => "undefined"
  | JsNull => "null"
  | JsBool true => "true"
  | JsBool false => "false"
  | JsInt z => NilZero.string_of_int (Z.to_int z)
  | JsString s => s
  end.

(** JS white space, restricted to the ASCII characters
    (tab, LF, VT, FF, CR and space). *)
Definition is_js_space (c : ascii) : bool :=
  let n := nat_of_ascii c in
  (Nat.eqb n 32) || (Nat.leb 9 n && Nat.leb n 13).

Fixpoint trim_start (s : string) : string :=
  match s with
  | EmptyString => EmptyString
  | String c r => if is_js_space c then trim_start r else s
  end.

Fixpoint trim_end (s : string) : string :=
  match s with
  | EmptyString => EmptyString
  | String c r =>
      let r' := trim_end r in
      if is_js_space c && String.eqb r' "" then EmptyString else String c r'
  end.

(** [String.prototype.trim]. *)
Definition js_trim (s : string) : string := trim_end (trim_start s).

(** The regular-expression class [\w]: [A-Za-z0-9_]. *)
Definition is_word_char (c : ascii) : bool :=
  let n := nat_of_ascii c in
  (Nat.leb 65 n && Nat.leb n 90) || (Nat.leb 97 n && Nat.leb n 122)
  || (Nat.leb 48 n && Nat.leb n 57) || Nat.eqb n 95.

Definition to_upper (c : ascii) : ascii :=
  let n := nat_of_ascii c in
  if Nat.leb 97 n && Nat.leb n 122 then ascii_of_nat (n - 32) else c.

Definition to_lower (c : ascii) : ascii :=
  let n := nat_of_ascii c in
  if Nat.leb 65 n && Nat.leb n 90 then ascii_of_nat (n + 32) else c.

(** [formatted.replace(/\w\S*/g, txt => txt.charAt(0).toUpperCase() +
    txt.substr(1).toLowerCase())]: [in_match] tells whether the scan is
    inside a match (after its first character). *)
Fixpoint title_case_from (in_match : bool) (s : string) : string :=
  match s with
  | EmptyString => EmptyString
  | String c r =>
      if in_match then
        if is_js_space c then String c (title_case_from false r)
        else String (to_lower c) (title_case_from true r)
      else if is_word_char c then String (to_upper c) (title_case_from true r)
      else String c (title_case_from false r)
  end.

Definition title_case (s : string) : string := title_case_from false s.

(** The [options] object: [trim] and [titleCase] are arbitrary JS values,
    [maxLength] is [undefined] ([None]) or an integer. *)
Record FormatOptions := mkFormatOptions {
  opt_trim : JsValue;
  opt_titleCase : JsValue;
  opt_maxLength : option Z
}.

(** [formatText(text, options)]:
<<
    if (!text) return '';
    let formatted = text.toString();
    if (options.trim !== false) formatted = formatted.trim();
    if (options.titleCase) formatted = formatted.replace(...);
    if (options.maxLength && formatted.length > options.maxLength)
        formatted = formatted.substring(0, options.maxLength) + '...';
    return formatted;
>> *)
Definition formatText (text : JsValue) (options : FormatOptions) : string :=
  if negb (truthy text) then EmptyString
  else
    let f0 := js_to_string text in
    let f1 := match opt_trim options with
              | JsBool false => f0
              | _ => js_trim f0
              end in
    let f2 := if truthy (opt_titleCase options) then title_case f1 else f1 in
    match opt_maxLength options with
    | Some n =>
        if negb (Z.eqb n 0) && Z.ltb n (Z.of_nat (String.length f2))
        then (substring 0 (Z.to_nat n) f2 ++ "...")%string
        else f2
    | None => f2
    end.

(* ----------------------------------------------------------------- *)
(** *** Capability orchestration layer

    The orchestration core (the Python service modules) is not among the
    sources at hand; every definition of this part is modelled from the
    specification, component by component. *)

Local Open Scope nat_scope.

Inductive Capability := Summarize | Translate | SpeechToText | TextToSpeech.

Inductive FailureKind :=
| Timeout | Unavailable | QuotaExceeded | InvalidOutput | UnsupportedLanguage.

(** Modelled from the spec: [EngineOutcome], the tagged result of one
    engine invocation, [Success(payload, engineId) | Failure(kind, detail)]. *)
Inductive EngineOutcome :=
| Success (payload : list ascii) (engineId : string)
| Failure (kind : FailureKind) (detail : string).

(** Modelled from the spec: [EngineDescriptor] (capability, priority rank,
    engine identity, per-attempt timeout in clock ticks, [isDeterministic]). *)
Record EngineDescriptor := mkDescriptor {
  ed_capability : Capability;
  ed_priority : nat;
  ed_engine : string;
  ed_timeout : nat;
  ed_isDeterministic : bool
}.

Definition capability_eqb (a b : Capability) : bool :=
  match a, b with
  | Summarize, Summarize | Translate, Translate
  | SpeechToText, SpeechToText | TextToSpeech, TextToSpeech => true
  | _, _ => false
  end.

(** Modelled from the spec: the [EngineRegistry], the descriptors in
    declaration order, loaded once. *)
Definition EngineRegistry := list EngineDescriptor.

Fixpoint insert_by_priority (d : EngineDescriptor) (l : list EngineDescriptor)
  : list EngineDescriptor :=
  match l with
  | [] => [d]
  | d' :: l' =>
      if Nat.leb (ed_priority d) (ed_priority d') then d :: l
      else d' :: insert_by_priority d l'
  end.

(** Stable sort by priority: ties keep declaration order. *)
Fixpoint sort_by_priority (l : list EngineDescriptor) : list EngineDescriptor :=
  match l with
  | [] => []
  | d :: l' => insert_by_priority d (sort_by_priority l')
  end.

(** Modelled from the spec: [enginesFor(capability)], lower rank first,
    ties broken by declaration order. *)
Definition enginesFor (reg : EngineRegistry) (cap : Capability)
  : list EngineDescriptor :=
  sort_by_priority (filter (fun d => capability_eqb (ed_capability d) cap) reg).

(** **** Attempt executor *)

(** What an engine does on a unit: the clock tick at which its call
    returns ([None]: it never returns) and the outcome it then reports. *)
Record EngineRun := mkRun {
  run_latency : option nat;
  run_outcome : EngineOutcome
}.

Definition EngineBehaviour := EngineDescriptor -> list ascii -> EngineRun.

(** Modelled from the spec: the executor waits for the engine tick by
    tick; a result available at tick [t] is taken, and at the deadline a
    still-running invocation is abandoned and reported as a timeout.
    Returns the tick at which the executor returns, with the outcome. *)
Fixpoint await_run (r : EngineRun) (deadline t fuel : nat) : nat * EngineOutcome :=
  match fuel with
  | O => (t, Failure Timeout "deadline")
  | S f =>
      let finished := match run_latency r with
                      | Some l => Nat.leb l t
                      | None => false
                      end in
      if finished then (t, run_outcome r)
      else if Nat.leb deadline t then (t, Failure Timeout "deadline")
      else await_run r deadline (S t) f
  end.

(** Modelled from the spec: [attempt(descriptor, unit)], with its latency. *)
Definition attempt_timed (beh : EngineBehaviour) (d : EngineDescriptor)
    (u : list ascii) : nat * EngineOutcome :=
  await_run (beh d u) (ed_timeout d) 0 (S (ed_timeout d)).

Definition attempt (beh : EngineBehaviour) (d : EngineDescriptor) (u : list ascii)
  : EngineOutcome :=
  snd (attempt_timed beh d u).

Definition outcome_kind (o : EngineOutcome) : option FailureKind :=
  match o with
  | Success _ _ => None
  | Failure k _ => Some k
  end.

(** The observability event emitted by each attempt. *)
Record AttemptRecord := mkAttempt {
  at_descriptor : EngineDescriptor;
  at_chunk : nat;
  at_latency : nat;
  at_outcome : option FailureKind
}.

(** **** Fallback chain *)

(** The result for one unit: served by a descriptor at a rank of the
    priority list, with the failures met before; or exhausted. *)
Inductive UnitResult :=
| Served (payload : list ascii) (provenance : EngineDescriptor) (rank : nat)
         (failures : list FailureKind)
| Exhausted (failures : list FailureKind).

(** Modelled from the spec: [resolve] walks the descriptors in order,
    one attempt each, stopping at the first [Success]. *)
Fixpoint resolve_from (beh : EngineBehaviour) (chunk : nat) (u : list ascii)
    (rank : nat) (ds : list EngineDescriptor) (failures : list FailureKind)
  : UnitResult * list AttemptRecord :=
  match ds with
  | [] => (Exhausted (rev failures), [])
  | d :: rest =>
      let '(lat, o) := attempt_timed beh d u in
      let ev := mkAttempt d chunk lat (outcome_kind o) in
      match o with
      | Success p _ => (Served p d rank (rev failures), [ev])
      | Failure k _ =>
          let '(r, log) := resolve_from beh chunk u (S rank) rest (k :: failures) in
          (r, ev :: log)
      end
  end.

Definition resolve (reg : EngineRegistry) (beh : EngineBehaviour)
    (cap : Capability) (chunk : nat) (u : list ascii)
  : UnitResult * list AttemptRecord :=
  resolve_from beh chunk u 0 (enginesFor reg cap) [].

(** **** Chunking engine (text) *)

(** Modelled from the spec: [ChunkSpan], an ordered index, start/end
    offsets into the input and the overlap-with-previous flag. *)
Record ChunkSpan := mkSpan {
  cs_index : nat;
  cs_start : nat;
  cs_end : nat;
  cs_overlap : bool
}.

Record ChunkConfig := mkChunkConfig {
  maxUnitSize : nat;
  overlap : nat
}.

Inductive ChunkError := InvalidInput.

Definition is_sentence_end (c : ascii) : bool :=
  match c with
  | "."%char | "!"%char | "?"%char => true
  | _ => false
  end.

(** The largest boundary [start + k] with [1 <= k <= room] that follows
    a character satisfying [p]. *)
Fixpoint last_boundary (p : ascii -> bool) (x : list ascii) (start room : nat)
  : option nat :=
  match room with
  | O => None
  | S r =>
      if p (nth (start + r) x " "%char) then Some (start + S r)
      else last_boundary p x start r
  end.

(** Modelled from the spec: where a chunk starting at [start] with room
    for [room] characters ends: after the last sentence end of the window,
    else after its last white space, else at the limit. *)
Definition cut_point (x : list ascii) (start room : nat) : nat :=
  match last_boundary is_sentence_end x start room with
  | Some q => q
  | None =>
      match last_boundary is_js_space x start room with
      | Some q => q
      | None => start + room
      end
  end.

(** Modelled from the spec: the splitting loop. [p] is where the new
    text of chunk [idx] begins and [q] the start of the previous chunk;
    chunk [idx > 0] also carries up to [overlap] characters before [p]
    (fewer when that would not leave its start after [q] or not leave
    room for new text). *)
Fixpoint split_from (cfg : ChunkConfig) (x : list ascii) (fuel idx p q : nat)
  : list ChunkSpan :=
  match fuel with
  | O => []
  | S f =>
      let ovk := if Nat.eqb idx 0 then 0
                 else Nat.min (overlap cfg) (Nat.min (p - q - 1) (maxUnitSize cfg - 1)) in
      let s := p - ovk in
      let room := maxUnitSize cfg - ovk in
      if Nat.leb (List.length x - p) room then [mkSpan idx s (List.length x) (Nat.ltb 0 ovk)]
      else
        let c := cut_point x p room in
        mkSpan idx s c (Nat.ltb 0 ovk) :: split_from cfg x f (S idx) c s
  end.

(** Modelled from the spec: [ChunkingEngine.split] on text; empty input
    (and a zero unit size) fail fast with [InvalidInput]. *)
Definition split (cfg : ChunkConfig) (x : list ascii) : ChunkError + list ChunkSpan :=
  match x with
  | [] => inl InvalidInput
  | _ :: _ =>
      if Nat.eqb (maxUnitSize cfg) 0 then inl InvalidInput
      else inr (split_from cfg x (List.length x) 0 0 0)
  end.

(** The unit of a span: the characters of the input it covers. *)
Definition chunk_text (x : list ascii) (sp : ChunkSpan) : list ascii :=
  firstn (cs_end sp - cs_start sp) (skipn (cs_start sp) x).

(** Modelled from the spec: [ChunkingEngine.merge] on text; the
    overlap of a chunk (from its start up to the end of the previous one)
    is stripped before concatenation. *)
Fixpoint merge_from (prev_end : nat) (parts : list (ChunkSpan * list ascii))
  : list ascii :=
  match parts with
  | [] => []
  | (sp, payload) :: rest =>
      let strip := if cs_overlap sp then prev_end - cs_start sp else 0 in
      skipn strip payload ++ merge_from (cs_end sp) rest
  end.

Definition merge (parts : list (ChunkSpan * list ascii)) : list ascii :=
  merge_from 0 parts.

(** The identity echo engine's payloads. *)
Definition echo_parts (x : list ascii) (spans : list ChunkSpan)
  : list (ChunkSpan * list ascii) :=
  map (fun sp => (sp, chunk_text x sp)) spans.

(** Chunk results collected in completion order are put back in chunk
    order before merging. *)
Fixpoint insert_by_index (a : ChunkSpan * list ascii)
    (l : list (ChunkSpan * list ascii)) : list (ChunkSpan * list ascii) :=
  match l with
  | [] => [a]
  | b :: l' =>
      if Nat.leb (cs_index (fst a)) (cs_index (fst b)) then a :: l
      else b :: insert_by_index a l'
  end.

Fixpoint sort_by_index (l : list (ChunkSpan * list ascii))
  : list (ChunkSpan * list ascii) :=
  match l with
  | [] => []
  | a :: l' => insert_by_index a (sort_by_index l')
  end.

(** Modelled from the spec: the merge step after concurrent resolution,
    on the chunk results in the order they completed. *)
Definition merge_completed (completed : list (ChunkSpan * list ascii)) : list ascii :=
  merge (sort_by_index completed).

(** **** Capability orchestrator *)

(** Modelled from the spec: [CapabilityRequest]. *)
Record CapabilityRequest := mkRequest {
  req_capability : Capability;
  req_input : list ascii;
  req_source_lang : option string;
  req_target_lang : option string
}.

Definition recognized_languages : list string :=
  ["en"; "es"; "fr"; "de"; "it"; "pt"; "ru"; "ja"; "ko"; "zh"; "ar"; "hi"]%string.

Definition language_ok (l : option string) : bool :=
  match l with
  | None => true
  | Some c => existsb (String.eqb c) recognized_languages
  end.

(** Modelled from the spec: step 1, validation of the request shape. *)
Definition validate (req : CapabilityRequest) : bool :=
  negb (match req_input req with [] => true | _ => false end)
  && language_ok (req_source_lang req) && language_ok (req_target_lang req).

Inductive Status := FullSuccess | DegradedSuccess | Failed.

Inductive RequestError := InvalidRequest.

(** Modelled from the spec: [CapabilityResult], the per-chunk outcomes,
    the merged payload, the engines actually used and the status. *)
Record CapabilityResult := mkResult {
  res_status : Status;
  res_payload : list ascii;
  res_provenance : list string;
  res_outcomes : list UnitResult
}.

(** Step 4: one fallback chain per chunk, in chunk order. *)
Fixpoint resolve_chunks (reg : EngineRegistry) (beh : EngineBehaviour)
    (cap : Capability) (x : list ascii) (spans : list ChunkSpan)
  : list (ChunkSpan * UnitResult) * list AttemptRecord :=
  match spans with
  | [] => ([], [])
  | sp :: rest =>
      let '(r, log1) := resolve reg beh cap (cs_index sp) (chunk_text x sp) in
      let '(rs, log2) := resolve_chunks reg beh cap x rest in
      ((sp, r) :: rs, log1 ++ log2)
  end.

Definition served_parts (rs : list (ChunkSpan * UnitResult))
  : list (ChunkSpan * list ascii) :=
  flat_map (fun '(sp, r) =>
              match r with
              | Served p _ _ _ => [(sp, p)]
              | Exhausted _ => []
              end) rs.

Definition provenance (rs : list (ChunkSpan * UnitResult)) : list string :=
  flat_map (fun '(_, r) =>
              match r with
              | Served _ d _ _ => [ed_engine d]
              | Exhausted _ => []
              end) rs.

Definition is_exhausted (r : UnitResult) : bool :=
  match r with Exhausted _ => true | Served _ _ _ _ => false end.

Definition served_by_top (r : UnitResult) : bool :=
  match r with Served _ _ 0 _ => true | _ => false end.

(** Step 6: the overall status. *)
Definition overall_status (outcomes : list UnitResult) : Status :=
  if existsb is_exhausted outcomes then Failed
  else if forallb served_by_top outcomes then FullSuccess
  else DegradedSuccess.

(** Modelled from the spec: [CapabilityOrchestrator.handle], with the
    record of every attempt made. *)
Definition handle (cfg : ChunkConfig) (reg : EngineRegistry)
    (beh : EngineBehaviour) (req : CapabilityRequest)
  : (RequestError + CapabilityResult) * list AttemptRecord :=
  if negb (validate req) then (inl InvalidRequest, [])
  else
    match split cfg (req_input req) with
    | inl _ => (inl InvalidRequest, [])
    | inr spans =>
        let '(rs, log) := resolve_chunks reg beh (req_capability req) (req_input req) spans in
        let outcomes := map snd rs in
        (inr (mkResult (overall_status outcomes) (merge (served_parts rs))
                       (provenance rs) outcomes), log)
    end.

(** Registry and engine assumptions of the fallback design: the last
    descriptor of the list is deterministic, and a deterministic engine
    answers every well-formed (non-empty) unit in time with a success. *)
Definition terminal_deterministic (ds : list EngineDescriptor) : Prop :=
  match rev ds with
  | d :: _ => ed_isDeterministic d = true
  | [] => False
  end.

Definition deterministic_engines_succeed (beh : EngineBehaviour) : Prop :=
  forall d u, ed_isDeterministic d = true -> u <> [] ->
    exists p e, attempt beh d u = Success p e.

Definition attempt_succeeds (o : EngineOutcome) : bool :=
  match o with Success _ _ => true | Failure _ _ => false end.

(** The engine still runs at the deadline. *)
Definition running_at (r : EngineRun) (t : nat) : Prop :=
  match run_latency r with
  | None => True
  | Some l => t < l
  end.

(* ----------------------------------------------------------------- *)
(** *** Notifications ([static/js/main.js]) *)

(** A notification object of [showNotification]. *)
Record Notification := mkNotification {
  n_id : Z;
  n_message : string;
  n_type : string;
  n_duration : Z
}.

(** [showNotification(message, type, duration)] on the global
    [notifications] array, at time [now] ([Date.now()]):
    [notifications.push({id: Date.now(), ...})]. Rendering and the
    removal timer act on the page, not on the array. *)
Definition showNotification (now : Z) (message type : string) (duration : Z)
    (notifications : list Notification) : list Notification :=
  notifications ++ [mkNotification now message type duration].

(** [removeNotification(id)] on the array:
    [notifications = notifications.filter(n => n.id !== id)]. *)
Definition removeNotification (id : Z) (notifications : list Notification)
  : list Notification :=
  filter (fun n => negb (Z.eqb (n_id n) id)) notifications.

(* ----------------------------------------------------------------- *)
(** *** Loading state ([static/js/main.js]) *)

(** The element's [innerHTML], [disabled] and
    [dataset.originalContent] ([None]: no such entry). *)
Record LoadElement := mkLoadElement {
  le_innerHTML : string;
  le_disabled : bool;
  le_originalContent : option string
}.

Definition dq : string := String (ascii_of_nat 34) EmptyString.
Definition nl : string := String (ascii_of_nat 10) EmptyString.

(** The template literal of [showLoadingState]. *)
Definition spinner_html (loadingText : string) : string :=
  (nl ++ "        <span class=" ++ dq ++ "spinner-border spinner-border-sm me-2" ++ dq
   ++ " role=" ++ dq ++ "status" ++ dq ++ " aria-hidden=" ++ dq ++ "true" ++ dq
   ++ "></span>" ++ nl ++ "        " ++ loadingText ++ nl ++ "    ")%string.

(** [showLoadingState(element, loadingText = 'Loading...')]. *)
Definition showLoadingState (element : option LoadElement) (loadingText : string)
  : option LoadElement :=
  match element with
  | None => None
  | Some e => Some (mkLoadElement (spinner_html loadingText) true (Some (le_innerHTML e)))
  end.

(** [hideLoadingState(element)]: does nothing when there is no element
    or when [dataset.originalContent] is missing or empty (falsy). *)
Definition hideLoadingState (element : option LoadElement) : option LoadElement :=
  match element with
  | None => None
  | Some e =>
      match le_originalContent e with
      | None => Some e
      | Some oc =>
          if String.eqb oc "" then Some e else Some (mkLoadElement oc false None)
      end
  end.

(* ----------------------------------------------------------------- *)
(** *** [ThemeManager] (shared script) and [initializeTheme] (main.js) *)

(** [localStorage.getItem(k)] ([None]: [null]). *)
Definition storage_get (k : string) (st : list (string * string)) : option string :=
  match find (fun kv => String.eqb (fst kv) k) st with
  | Some kv => Some (snd kv)
  | None => None
  end.

(** The document state used by [ThemeManager]: the [data-theme]
    attribute of [<html>], the class of the toggle icon (if the page has
    one) and [localStorage]. *)
Record ThemeDoc := mkThemeDoc {
  html_data_theme : option string;
  tm_toggle_icon : option string;
  tm_storage : list (string * string)
}.

(** [ThemeManager.setTheme(theme, save = true)]. *)
Definition tm_setTheme (theme : string) (save : bool) (d : ThemeDoc) : ThemeDoc :=
  let dark := String.eqb theme "dark" in
  mkThemeDoc
    (if dark then Some "dark"%string else None)
    (match tm_toggle_icon d with
     | Some _ => Some (if dark then "fas fa-sun" else "fas fa-moon")%string
     | None => None
     end)
    (if save then storage_set "autocomm-theme" theme (tm_storage d) else tm_storage d).

(** [ThemeManager.toggleTheme()]: reads the attribute, sets the other
    theme and saves it. *)
Definition tm_toggleTheme (d : ThemeDoc) : ThemeDoc :=
  let current := html_data_theme d in
  let newTheme := match current with
                  | Some t => if String.eqb t "dark" then "light"%string else "dark"%string
                  | None => "dark"%string
                  end in
  tm_setTheme newTheme true d.

(** [ThemeManager.loadTheme()]:
    [localStorage.getItem('autocomm-theme') || 'light'], not saved. *)
Definition tm_loadTheme (d : ThemeDoc) : ThemeDoc :=
  let savedTheme := match storage_get "autocomm-theme" (tm_storage d) with
                    | Some s => if String.eqb s "" then "light"%string else s
                    | None => "light"%string
                    end in
  tm_setTheme savedTheme false d.

(** [initializeTheme()] of main.js (the listener registration aside):
    a saved, non-empty theme becomes [currentTheme] and is applied. *)
Definition initializeTheme (s : PageState) : PageState :=
  match storage_get "autocomm-theme" (local_storage s) with
  | Some saved =>
      if String.eqb saved "" then s
      else applyTheme saved (mkPage saved (body_data_theme s) (toggle_icon_class s)
                                    (local_storage s))
  | None => s
  end.

(* ----------------------------------------------------------------- *)
(** *** Form validation ([static/js/main.js]) *)









(* ----------------------------------------------------------------- *)
(** *** File upload ([static/js/main.js]) *)













(* ----------------------------------------------------------------- *)
(** *** [isValidEmail] ([static/js/main.js]) *)

(** Regular expressions over characters, matched by Brzozowski
    derivatives. *)
Inductive regex :=
| RNone
| REps
| RClass (p : ascii -> bool)
| RAlt (r1 r2 : regex)
| RCat (r1 r2 : regex)
| RStar (r : regex).

Definition RPlus (r : regex) : regex := RCat r (RStar r).

Fixpoint nullable (r : regex) : bool :=
  match r with
  | RNone | RClass _ => false
  | REps | RStar _ => true
  | RAlt r1 r2 => nullable r1 || nullable r2
  | RCat r1 r2 => nullable r1 && nullable r2
  end.

Fixpoint deriv (a : ascii) (r : regex) : regex :=
  match r with
  | RNone | REps => RNone
  | RClass p => if p a then REps else RNone
  | RAlt r1 r2 => RAlt (deriv a r1) (deriv a r2)
  | RCat r1 r2 =>
      if nullable r1 then RAlt (RCat (deriv a r1) r2) (deriv a r2)
      else RCat (deriv a r1) r2
  | RStar r1 => RCat (deriv a r1) (RStar r1)
  end.

Fixpoint matches (r : regex) (w : list ascii) : bool :=
  match w with
  | [] => nullable r
  | a :: w' => matches (deriv a r) w'
  end.

(** The language of a regular expression. *)
Inductive in_lang : regex -> list ascii -> Prop :=
| L_eps : in_lang REps []
| L_class (p : ascii -> bool) (a : ascii) : p a = true -> in_lang (RClass p) [a]
| L_altl r1 r2 w : in_lang r1 w -> in_lang (RAlt r1 r2) w
| L_altr r1 r2 w : in_lang r2 w -> in_lang (RAlt r1 r2) w
| L_cat r1 r2 w1 w2 : in_lang r1 w1 -> in_lang r2 w2 -> in_lang (RCat r1 r2) (w1 ++ w2)
| L_star0 r : in_lang (RStar r) []
| L_starS r w1 w2 : in_lang r w1 -> in_lang (RStar r) w2 -> in_lang (RStar r) (w1 ++ w2).

(** [\s] of a JS regular expression on the code units up to 255: the
    ASCII white space and the no-break space U+00A0. *)
Definition regex_space (c : ascii) : bool :=
  is_js_space c || Nat.eqb (nat_of_ascii c) 160.

(** [[^\s@]] *)
Definition not_space_at (c : ascii) : bool :=
  negb (regex_space c) && negb (Ascii.eqb c "@"%char).

(** [/^[^\s@]+@[^\s@]+\.[^\s@]+$/] *)
Definition email_regex : regex :=
  RCat (RPlus (RClass not_space_at))
    (RCat (RClass (Ascii.eqb "@"%char))
       (RCat (RPlus (RClass not_space_at))
          (RCat (RClass (Ascii.eqb "."%char)) (RPlus (RClass not_space_at))))).

(** [isValidEmail(email)]: [emailRegex.test(email)]. *)
Definition isValidEmail (email : string) : bool :=
  matches email_regex (list_ascii_of_string email).

(* ----------------------------------------------------------------- *)
(** *** Auxiliary definitions: messages, sample inputs, float equality *)





(** A character allowed by [[^\s@]]. *)
Definition email_char_ok (c : ascii) : Prop := regex_space c = false /\ c <> "@"%char.

(** Structural equality of binary64 values and of [SizeText]s. *)
Definition sf_eqb (x y : spec_float) : bool :=
  match x, y with
  | S754_zero a, S754_zero b => Bool.eqb a b
  | S754_infinity a, S754_infinity b => Bool.eqb a b
  | S754_nan, S754_nan => true
  | S754_finite a m e, S754_finite b m' e' => Bool.eqb a b && Pos.eqb m m' && Z.eqb e e'
  | _, _ => false
  end.

Definition size_text_eqb (x y : SizeText) : bool :=
  sf_eqb (st_number x) (st_number y) && String.eqb (st_label x) (st_label y).

(* ================================================================= *)
(** ** Part II: properties *)
(* ================================================================= *)

(* ----------------------------------------------------------------- *)
(** *** [formatFileSize]: main.js against [Utils] *)

Example formatFileSize_1536 :
  formatFileSize_main 1536 = formatFileSize_utils 1536.
Proof. vm_compute. reflexivity. Qed.

(** At 360546355422167 bytes the scaled value is 327.91499999999996...;
    [toFixed(2)] rounds its exact value to 327.91, while the product
    [* 100] is rounded to 32791.5 before [Math.round] sees it. *)
Example formatFileSize_hundredths_differ :
  to_fixed2_hundredths (scaled 360546355422167) = 32791%Z /\
  math_round (js_value (js_mul (scaled 360546355422167) (js_of_Z 100))) = 32792%Z.
Proof. vm_compute. split; reflexivity. Qed.

(** Claim C8 (counterexample): main.js's [formatFileSize] and
    [Utils.formatFileSize] differ at 360546355422167 bytes
    (["327.91 undefined"] against ["327.92 undefined"]). *)
Lemma formatFileSize_implementations_differ :
  formatFileSize_main 360546355422167 <> formatFileSize_utils 360546355422167.
Proof. vm_compute. intro H. inversion H. Qed.

(** Claim C8 (amended): whenever the binary64 product
    [(bytes / 1024^i) * 100] is exact, the two implementations of
    [formatFileSize] return the same string. *)
Theorem formatFileSize_agree_when_product_exact :
  forall bytes : Z, scaled_product_exact bytes ->
  formatFileSize_main bytes = formatFileSize_utils bytes.
Proof.
  intros bytes Hex. unfold formatFileSize_main, formatFileSize_utils.
  destruct (Z.eqb bytes 0); [reflexivity|].
  unfold to_fixed2_hundredths, math_round.
  unfold scaled_product_exact in Hex. rewrite Hex. reflexivity.
Qed.

Lemma formatFileSize_agree_when_product_exact_witness :
  scaled_product_exact 1536 /\ formatFileSize_main 1536 = formatFileSize_utils 1536.
Proof.
  assert (H : scaled_product_exact 1536) by (vm_compute; reflexivity).
  split; [exact H | apply (formatFileSize_agree_when_product_exact 1536 H)].
Defined.

(* ----------------------------------------------------------------- *)
(** *** [toggleTheme] *)

(** Claim C9: after [toggleTheme], [currentTheme] is ['light'] or
    ['dark']: ['dark'] when it was ['light'], ['light'] otherwise; from
    ['light'] or ['dark'], two toggles restore it. *)
Theorem toggleTheme_currentTheme :
  forall s : PageState,
    (currentTheme (toggleTheme s) = "light"%string \/
     currentTheme (toggleTheme s) = "dark"%string) /\
    currentTheme (toggleTheme s) =
      (if String.eqb (currentTheme s) "light" then "dark" else "light")%string /\
    ((currentTheme s = "light"%string \/ currentTheme s = "dark"%string) ->
     currentTheme (toggleTheme (toggleTheme s)) = currentTheme s).
Proof.
  intros [t b i st]. unfold toggleTheme; simpl.
  destruct (String.eqb_spec t "light") as [->|Hne]; simpl.
  - split; [right; reflexivity | split; [reflexivity|]]. intros _. reflexivity.
  - split; [left; reflexivity | split; [reflexivity|]].
    intros [H|H]; [contradiction | subst; reflexivity].
Qed.

(* ----------------------------------------------------------------- *)
(** *** [formatText] *)

Lemma string_length_append : forall s1 s2 : string,
  String.length (s1 ++ s2) = String.length s1 + String.length s2.
Proof. induction s1 as [|c s1 IH]; intros s2; simpl; [reflexivity | now rewrite IH]. Qed.

Lemma substring_prefix_length : forall (k : nat) (s : string),
  String.length (substring 0 k s) <= k.
Proof.
  induction k as [|k IH]; intros [|c s]; simpl; try lia.
  specialize (IH s). lia.
Qed.

Example formatText_truncates :
  formatText (JsString "  hello wORLD foo-bar  ")
    (mkFormatOptions JsUndefined (JsBool true) (Some 8%Z)) = "Hello Wo..."%string.
Proof. vm_compute. reflexivity. Qed.

(** Claim C10: with a positive integer [maxLength], [formatText]
    returns at most [maxLength + 3] characters; for [null], [undefined]
    and the empty string it returns the empty string. *)
Theorem formatText_length_bound :
  forall options : FormatOptions,
    (forall (text : JsValue) (n : Z), opt_maxLength options = Some n -> (0 < n)%Z ->
       String.length (formatText text options) <= Z.to_nat n + 3) /\
    formatText JsNull options = EmptyString /\
    formatText JsUndefined options = EmptyString /\
    formatText (JsString "") options = EmptyString.
Proof.
  intros options. split; [|repeat split].
  intros text n Hn Hpos. unfold formatText. rewrite Hn.
  destruct (negb (truthy text)); [simpl; lia|].
  set (f := (if truthy (opt_titleCase options) then _ else _)).
  destruct (negb (Z.eqb n 0) && Z.ltb n (Z.of_nat (String.length f)))%bool eqn:E.
  - rewrite string_length_append. simpl String.length at 2.
    pose proof (substring_prefix_length (Z.to_nat n) f). lia.
  - apply Bool.andb_false_iff in E. destruct E as [E|E].
    + apply Bool.negb_false_iff, Z.eqb_eq in E. lia.
    + apply Z.ltb_ge in E. lia.
Qed.

(* ----------------------------------------------------------------- *)
(** *** Attempt executor *)

Lemma await_run_deadline : forall fuel r deadline t,
  t <= deadline -> deadline - t < fuel ->
  fst (await_run r deadline t fuel) <= deadline /\
  (running_at r deadline ->
   exists detail, snd (await_run r deadline t fuel) = Failure Timeout detail).
Proof.
  induction fuel as [|f IH]; intros r deadline t Ht Hf; [lia|].
  simpl. unfold running_at.
  destruct (run_latency r) as [l|] eqn:El.
  - destruct (Nat.leb_spec l t) as [Hl|Hl].
    + simpl. split; [exact Ht | intros Hr; lia].
    + destruct (Nat.leb_spec deadline t) as [Hd|Hd].
      * simpl. split; [exact Ht | intros _; eexists; reflexivity].
      * specialize (IH r deadline (S t) ltac:(lia) ltac:(lia)).
        unfold running_at in IH. rewrite El in IH. exact IH.
  - destruct (Nat.leb_spec deadline t) as [Hd|Hd].
    + simpl. split; [exact Ht | intros _; eexists; reflexivity].
    + specialize (IH r deadline (S t) ltac:(lia) ltac:(lia)).
      unfold running_at in IH. rewrite El in IH. exact IH.
Qed.

(** Claim C6: [attempt] returns at the latest at the descriptor's
    timeout (grace bound zero ticks), and an engine still running at the
    deadline is abandoned with [Failure(Timeout, _)]. *)
Theorem attempt_returns_by_timeout :
  forall (beh : EngineBehaviour) (d : EngineDescriptor) (u : list ascii),
    fst (attempt_timed beh d u) <= ed_timeout d /\
    (running_at (beh d u) (ed_timeout d) ->
     exists detail, attempt beh d u = Failure Timeout detail).
Proof.
  intros beh d u. unfold attempt, attempt_timed.
  apply await_run_deadline; lia.
Qed.

(* ----------------------------------------------------------------- *)
(** *** Fallback chain *)

Lemma resolve_from_prefix : forall beh chunk u ds rank failures,
  exists untried,
    ds = map at_descriptor (snd (resolve_from beh chunk u rank ds failures)) ++ untried.
Proof.
  intros beh chunk u ds. induction ds as [|d rest IH]; intros rank failures.
  - exists []. reflexivity.
  - simpl. destruct (attempt_timed beh d u) as [lat o].
    destruct o as [p e|k det].
    + exists rest. reflexivity.
    + destruct (IH (S rank) (k :: failures)) as [untried Hu].
      destruct (resolve_from beh chunk u (S rank) rest (k :: failures)) as [r log].
      exists untried. simpl in *. rewrite <- Hu. reflexivity.
Qed.

(** Claim C3: the attempts of [resolve] for a unit are a prefix of
    [enginesFor capability], one per descriptor: at most
    [len(enginesFor(capability))] of them, and no descriptor of a list
    without repetition is tried twice. *)
Theorem resolve_attempts_prefix :
  forall (reg : EngineRegistry) (beh : EngineBehaviour) (cap : Capability)
         (chunk : nat) (u : list ascii),
    let log := snd (resolve reg beh cap chunk u) in
    (exists untried, enginesFor reg cap = map at_descriptor log ++ untried) /\
    List.length log <= List.length (enginesFor reg cap) /\
    (NoDup (enginesFor reg cap) -> NoDup (map at_descriptor log)).
Proof.
  intros reg beh cap chunk u log.
  destruct (resolve_from_prefix beh chunk u (enginesFor reg cap) 0 []) as [untried Hu].
  fold (resolve reg beh cap chunk u) in Hu. fold log in Hu.
  split; [exists untried; exact Hu | split].
  - rewrite Hu, length_app, length_map. lia.
  - intros Hnd. rewrite Hu in Hnd. exact (NoDup_app_remove_r _ _ Hnd).
Qed.

(* ----------------------------------------------------------------- *)
(** *** Orchestrator: empty input *)

(** Claim C5: an empty input fails fast: [handle] answers
    [InvalidRequest] with no attempt made, and [split] answers
    [InvalidInput] instead of an empty chunk. *)
Theorem handle_empty_input_fails_fast :
  forall (cfg : ChunkConfig) (reg : EngineRegistry) (beh : EngineBehaviour)
         (cap : Capability) (src tgt : option string),
    handle cfg reg beh (mkRequest cap [] src tgt) = (inl InvalidRequest, []) /\
    split cfg [] = inl InvalidInput.
Proof. intros. split; reflexivity. Qed.

(* ----------------------------------------------------------------- *)
(** *** Chunking engine *)

Lemma last_boundary_range : forall f x start room q,
  last_boundary f x start room = Some q -> start < q <= start + room.
Proof.
  intros f x start room. induction room as [|r IH]; intros q H; simpl in H.
  - discriminate.
  - destruct (f (nth (start + r) x " "%char)).
    + injection H as <-. lia.
    + specialize (IH q H). lia.
Qed.

Lemma cut_point_range : forall x start room,
  0 < room -> start < cut_point x start room <= start + room.
Proof.
  intros x start room Hr. unfold cut_point.
  destruct (last_boundary is_sentence_end x start room) as [q|] eqn:E1.
  - exact (last_boundary_range _ _ _ _ _ E1).
  - destruct (last_boundary is_js_space x start room) as [q|] eqn:E2.
    + exact (last_boundary_range _ _ _ _ _ E2).
    + lia.
Qed.

(** The overlap kept by a chunk is what [merge] strips from it. *)
Lemma overlap_strip : forall p ovk,
  ovk <= p -> (if Nat.ltb 0 ovk then p - (p - ovk) else 0) = ovk.
Proof. intros p ovk H. destruct (Nat.ltb_spec 0 ovk); lia. Qed.

Lemma strip_chunk : forall (x : list ascii) ovk p e,
  ovk <= p -> p <= e ->
  skipn ovk (firstn (e - (p - ovk)) (skipn (p - ovk) x)) = firstn (e - p) (skipn p x).
Proof.
  intros x ovk p e H1 H2.
  rewrite skipn_firstn_comm, skipn_skipn.
  replace (ovk + (p - ovk)) with p by lia.
  replace (e - (p - ovk) - ovk) with (e - p) by lia. reflexivity.
Qed.

(** The overlap of the chunk starting new text at [p]. *)
Definition chunk_overlap (cfg : ChunkConfig) (idx p q : nat) : nat :=
  if Nat.eqb idx 0 then 0
  else Nat.min (overlap cfg) (Nat.min (p - q - 1) (maxUnitSize cfg - 1)).

Lemma chunk_overlap_bounds : forall cfg idx p q,
  0 < maxUnitSize cfg ->
  chunk_overlap cfg idx p q <= p /\ chunk_overlap cfg idx p q < maxUnitSize cfg.
Proof.
  intros cfg idx p q H. unfold chunk_overlap.
  destruct (Nat.eqb idx 0); lia.
Qed.

Lemma split_from_unfold : forall cfg x f idx p q,
  split_from cfg x (S f) idx p q =
  let ovk := chunk_overlap cfg idx p q in
  let s := p - ovk in
  let room := maxUnitSize cfg - ovk in
  if Nat.leb (List.length x - p) room then [mkSpan idx s (List.length x) (Nat.ltb 0 ovk)]
  else
    let c := cut_point x p room in
    mkSpan idx s c (Nat.ltb 0 ovk) :: split_from cfg x f (S idx) c s.
Proof. reflexivity. Qed.

Lemma split_from_roundtrip : forall cfg x fuel idx p q,
  0 < maxUnitSize cfg -> p < List.length x -> List.length x - p <= fuel ->
  merge_from p (echo_parts x (split_from cfg x fuel idx p q)) = skipn p x.
Proof.
  intros cfg x fuel. induction fuel as [|f IH]; intros idx p q Hm Hp Hf; [lia|].
  rewrite split_from_unfold. cbv zeta.
  destruct (chunk_overlap_bounds cfg idx p q Hm) as [Ho1 Ho2].
  set (ovk := chunk_overlap cfg idx p q) in *.
  destruct (Nat.leb_spec (List.length x - p) (maxUnitSize cfg - ovk)) as [Hl|Hl].
  - simpl. unfold chunk_text; simpl.
    rewrite overlap_strip by exact Ho1.
    rewrite strip_chunk by lia. rewrite app_nil_r.
    apply firstn_all2. rewrite length_skipn. lia.
  - pose proof (cut_point_range x p (maxUnitSize cfg - ovk) ltac:(lia)) as Hc.
    set (c := cut_point x p (maxUnitSize cfg - ovk)) in *.
    simpl. unfold chunk_text; simpl.
    rewrite overlap_strip by exact Ho1.
    rewrite strip_chunk by lia.
    rewrite (IH (S idx) c (p - ovk) Hm ltac:(lia) ltac:(lia)).
    rewrite <- (firstn_skipn (c - p) (skipn p x)) at 2.
    rewrite skipn_skipn. replace (c - p + p) with c by lia. reflexivity.
Qed.

(** Claim C1: merging the echo payloads of the chunks of [split x]
    (overlap stripped) gives back [x]. *)
Theorem merge_split_roundtrip :
  forall (cfg : ChunkConfig) (x : list ascii) (spans : list ChunkSpan),
    split cfg x = inr spans -> merge (echo_parts x spans) = x.
Proof.
  intros cfg x spans H. unfold split in H.
  destruct x as [|a x']; [discriminate|].
  destruct (Nat.eqb_spec (maxUnitSize cfg) 0) as [Hz|Hz]; [discriminate|].
  injection H as <-. unfold merge.
  exact (split_from_roundtrip cfg (a :: x') (List.length (a :: x')) 0 0 0
           ltac:(lia) ltac:(simpl; lia) ltac:(simpl; lia)).
Qed.

Lemma merge_split_roundtrip_witness :
  split (mkChunkConfig 8 2) (list_ascii_of_string "Hello world. Bye now friend!") =
    inr [mkSpan 0 0 6 false; mkSpan 1 4 12 true; mkSpan 2 10 17 true;
         mkSpan 3 15 21 true; mkSpan 4 19 27 true; mkSpan 5 25 28 true] /\
  merge (echo_parts (list_ascii_of_string "Hello world. Bye now friend!")
           [mkSpan 0 0 6 false; mkSpan 1 4 12 true; mkSpan 2 10 17 true;
            mkSpan 3 15 21 true; mkSpan 4 19 27 true; mkSpan 5 25 28 true]) =
    list_ascii_of_string "Hello world. Bye now friend!".
Proof.
  assert (H : split (mkChunkConfig 8 2) (list_ascii_of_string "Hello world. Bye now friend!") =
    inr [mkSpan 0 0 6 false; mkSpan 1 4 12 true; mkSpan 2 10 17 true;
         mkSpan 3 15 21 true; mkSpan 4 19 27 true; mkSpan 5 25 28 true])
    by (vm_compute; reflexivity).
  split; [exact H | exact (merge_split_roundtrip _ _ _ H)].
Defined.

(** Claim C2: a non-empty input shorter than [maxUnitSize] is one chunk
    spanning all of it. *)
Theorem split_short_input_single_chunk :
  forall (cfg : ChunkConfig) (x : list ascii),
    x <> [] -> List.length x < maxUnitSize cfg ->
    split cfg x = inr [mkSpan 0 0 (List.length x) false].
Proof.
  intros cfg x Hne Hlt. unfold split.
  destruct x as [|a x']; [contradiction|].
  destruct (Nat.eqb_spec (maxUnitSize cfg) 0) as [Hz|Hz]; [lia|].
  simpl List.length at 1. rewrite split_from_unfold. cbv zeta.
  unfold chunk_overlap. simpl Nat.eqb. cbv iota.
  destruct (Nat.leb_spec (List.length (a :: x') - 0) (maxUnitSize cfg - 0)) as [H|H].
  - reflexivity.
  - simpl List.length in *. lia.
Qed.

Lemma split_short_input_single_chunk_witness :
  list_ascii_of_string "Short text." <> [] /\
  List.length (list_ascii_of_string "Short text.") < maxUnitSize (mkChunkConfig 1000 0) /\
  split (mkChunkConfig 1000 0) (list_ascii_of_string "Short text.") =
    inr [mkSpan 0 0 (List.length (list_ascii_of_string "Short text.")) false].
Proof.
  assert (H1 : list_ascii_of_string "Short text." <> []) by discriminate.
  assert (H2 : List.length (list_ascii_of_string "Short text.") <
               maxUnitSize (mkChunkConfig 1000 0)) by (simpl; lia).
  split; [exact H1 | split; [exact H2 | exact (split_short_input_single_chunk _ _ H1 H2)]].
Defined.

(* ----------------------------------------------------------------- *)
(** *** Merging after concurrent resolution *)

Lemma split_inr : forall cfg x spans,
  split cfg x = inr spans ->
  spans = split_from cfg x (List.length x) 0 0 0 /\ x <> [] /\ 0 < maxUnitSize cfg.
Proof.
  intros cfg x spans H. unfold split in H.
  destruct x as [|a x']; [discriminate|].
  destruct (Nat.eqb_spec (maxUnitSize cfg) 0); [discriminate|].
  injection H as H. split; [symmetry; exact H | split; [discriminate | lia]].
Qed.

Lemma split_from_indices : forall cfg x fuel idx p q,
  map cs_index (split_from cfg x fuel idx p q) =
  seq idx (List.length (split_from cfg x fuel idx p q)).
Proof.
  intros cfg x fuel. induction fuel as [|f IH]; intros idx p q; [reflexivity|].
  rewrite split_from_unfold. cbv zeta.
  destruct (Nat.leb _ _); simpl; [reflexivity|].
  f_equal. apply IH.
Qed.

Ltac split_lebs :=
  repeat (simpl; match goal with
                 | |- context [Nat.leb ?a ?b] => destruct (Nat.leb_spec a b)
                 end).

Lemma insert_by_index_comm : forall a b l,
  cs_index (fst a) <> cs_index (fst b) ->
  insert_by_index a (insert_by_index b l) = insert_by_index b (insert_by_index a l).
Proof.
  intros a b l Hab. induction l as [|c l IH];
    split_lebs; try lia; try reflexivity.
  all: f_equal; exact IH.
Qed.

Lemma sort_by_index_perm : forall l1 l2,
  Permutation l1 l2 -> NoDup (map (fun a => cs_index (fst a)) l1) ->
  sort_by_index l1 = sort_by_index l2.
Proof.
  intros l1 l2 H. induction H as [|a l l' Hp IH|a b l|l l' l'' H1 IH1 H2 IH2];
    intros Hnd.
  - reflexivity.
  - simpl in *. inversion Hnd; subst. rewrite IH by assumption. reflexivity.
  - simpl in *. inversion Hnd as [|? ? Hnotin _]; subst.
    apply insert_by_index_comm. intros He. apply Hnotin. left. symmetry. exact He.
  - rewrite (IH1 Hnd). apply IH2.
    exact (Permutation_NoDup (Permutation_map _ H1) Hnd).
Qed.

Lemma sort_by_index_in_order : forall l k,
  map (fun a => cs_index (fst a)) l = seq k (List.length l) -> sort_by_index l = l.
Proof.
  induction l as [|a l IH]; intros k H; [reflexivity|].
  simpl in H. injection H as Ha Hl. simpl. rewrite (IH (S k) Hl).
  destruct l as [|b l']; [reflexivity|].
  simpl in Hl. injection Hl as Hb _. simpl. rewrite Ha, Hb.
  destruct (Nat.leb_spec k (S k)); [reflexivity | lia].
Qed.

Lemma combine_indices : forall (spans : list ChunkSpan) (payloads : list (list ascii)),
  List.length payloads = List.length spans ->
  map (fun a => cs_index (fst a)) (combine spans payloads) = map cs_index spans.
Proof.
  induction spans as [|sp spans IH]; intros [|pl payloads] H; simpl in *;
    try discriminate; [reflexivity|].
  f_equal. apply IH. lia.
Qed.

(** Claim C7: whatever the order in which the chunk results complete
    (any permutation of the results in chunk order), the merged output
    is the merge of the results in chunk order. *)
Theorem merge_completed_order_independent :
  forall (cfg : ChunkConfig) (x : list ascii) (spans : list ChunkSpan)
         (payloads : list (list ascii)) (completed : list (ChunkSpan * list ascii)),
    split cfg x = inr spans ->
    List.length payloads = List.length spans ->
    Permutation completed (combine spans payloads) ->
    merge_completed completed = merge (combine spans payloads).
Proof.
  intros cfg x spans payloads completed Hs Hl Hp.
  assert (Hidx : map cs_index spans = seq 0 (List.length spans)).
  { destruct (split_inr _ _ _ Hs) as [-> _]. apply split_from_indices. }
  assert (Hkeys : map (fun a => cs_index (fst a)) (combine spans payloads) =
                  seq 0 (List.length (combine spans payloads))).
  { rewrite combine_indices by exact Hl. rewrite length_combine, Hl, Nat.min_id.
    exact Hidx. }
  unfold merge_completed.
  rewrite (sort_by_index_perm completed (combine spans payloads) Hp).
  - rewrite (sort_by_index_in_order _ 0 Hkeys). reflexivity.
  - apply (Permutation_NoDup (Permutation_map _ (Permutation_sym Hp))).
    rewrite Hkeys. apply seq_NoDup.
Qed.

Lemma merge_completed_order_independent_witness :
  split (mkChunkConfig 8 0) (list_ascii_of_string "One. Two. Three.") =
    inr [mkSpan 0 0 4 false; mkSpan 1 4 9 false; mkSpan 2 9 16 false] /\
  merge_completed
    (rev (combine [mkSpan 0 0 4 false; mkSpan 1 4 9 false; mkSpan 2 9 16 false]
                  (map list_ascii_of_string ["Un."; " Deux."; " Trois."]%string))) =
  merge (combine [mkSpan 0 0 4 false; mkSpan 1 4 9 false; mkSpan 2 9 16 false]
                 (map list_ascii_of_string ["Un."; " Deux."; " Trois."]%string)).
Proof.
  assert (Hs : split (mkChunkConfig 8 0) (list_ascii_of_string "One. Two. Three.") =
    inr [mkSpan 0 0 4 false; mkSpan 1 4 9 false; mkSpan 2 9 16 false])
    by (vm_compute; reflexivity).
  split; [exact Hs|].
  apply (merge_completed_order_independent _ _ _ _ _ Hs).
  - reflexivity.
  - apply Permutation_sym, Permutation_rev.
Defined.

(* ----------------------------------------------------------------- *)
(** *** Orchestrator: overall status *)

Lemma split_from_spans_wf : forall cfg x fuel idx p q,
  0 < maxUnitSize cfg -> p < List.length x -> List.length x - p <= fuel ->
  split_from cfg x fuel idx p q <> [] /\
  Forall (fun sp => cs_start sp < cs_end sp <= List.length x) (split_from cfg x fuel idx p q).
Proof.
  intros cfg x fuel. induction fuel as [|f IH]; intros idx p q Hm Hp Hf; [lia|].
  rewrite split_from_unfold. cbv zeta.
  destruct (chunk_overlap_bounds cfg idx p q Hm) as [Ho1 Ho2].
  set (ovk := chunk_overlap cfg idx p q) in *.
  destruct (Nat.leb_spec (List.length x - p) (maxUnitSize cfg - ovk)) as [Hl|Hl].
  - split; [discriminate|]. constructor; [simpl; lia | constructor].
  - pose proof (cut_point_range x p (maxUnitSize cfg - ovk) ltac:(lia)) as Hc.
    set (c := cut_point x p (maxUnitSize cfg - ovk)) in *.
    split; [discriminate|]. constructor; [simpl; lia|].
    apply (IH (S idx) c (p - ovk) Hm); lia.
Qed.

Lemma chunk_text_nonempty : forall x sp,
  cs_start sp < cs_end sp <= List.length x -> chunk_text x sp <> [].
Proof.
  intros x sp H He. unfold chunk_text in He.
  apply (f_equal (@List.length ascii)) in He.
  rewrite length_firstn, length_skipn in He. simpl in He. lia.
Qed.

Lemma resolve_from_not_exhausted :
  forall beh chunk u ds rank failures,
    deterministic_engines_succeed beh -> u <> [] ->
    (exists d, In d ds /\ ed_isDeterministic d = true) ->
    is_exhausted (fst (resolve_from beh chunk u rank ds failures)) = false.
Proof.
  intros beh chunk u ds. induction ds as [|d rest IH]; intros rank failures Hdet Hu Hex.
  - destruct Hex as [d [[] _]].
  - simpl. destruct (attempt_timed beh d u) as [lat o] eqn:Ea.
    destruct o as [p e|k det]; [reflexivity|].
    destruct (resolve_from beh chunk u (S rank) rest (k :: failures)) as [r log] eqn:Er.
    simpl. change r with (fst (r, log)). rewrite <- Er.
    apply IH; [exact Hdet | exact Hu|].
    destruct Hex as [d' [[<-|Hin] Hd']].
    + destruct (Hdet d u Hd' Hu) as [p [e Hs]].
      unfold attempt in Hs. rewrite Ea in Hs. discriminate.
    + exists d'. split; assumption.
Qed.

Lemma resolve_from_later_rank : forall beh chunk u ds rank failures,
  served_by_top (fst (resolve_from beh chunk u (S rank) ds failures)) = false.
Proof.
  intros beh chunk u ds. induction ds as [|d rest IH]; intros rank failures;
    [reflexivity|].
  simpl. destruct (attempt_timed beh d u) as [lat o].
  destruct o as [p e|k det]; [reflexivity|].
  specialize (IH (S rank) (k :: failures)).
  destruct (resolve_from beh chunk u (S (S rank)) rest (k :: failures)). exact IH.
Qed.

Lemma resolve_from_top : forall beh chunk u d rest failures,
  served_by_top (fst (resolve_from beh chunk u 0 (d :: rest) failures)) =
  attempt_succeeds (attempt beh d u).
Proof.
  intros. simpl. unfold attempt.
  destruct (attempt_timed beh d u) as [lat o]. simpl.
  destruct o as [p e|k det]; [reflexivity|].
  pose proof (resolve_from_later_rank beh chunk u rest 0 (k :: failures)) as H.
  destruct (resolve_from beh chunk u 1 rest (k :: failures)). exact H.
Qed.

Lemma resolve_chunks_outcomes : forall reg beh cap x spans,
  map snd (fst (resolve_chunks reg beh cap x spans)) =
  map (fun sp => fst (resolve reg beh cap (cs_index sp) (chunk_text x sp))) spans.
Proof.
  intros reg beh cap x spans. induction spans as [|sp rest IH]; [reflexivity|].
  simpl. destruct (resolve reg beh cap (cs_index sp) (chunk_text x sp)) as [r log1].
  destruct (resolve_chunks reg beh cap x rest) as [rs log2]. simpl in *.
  rewrite IH. reflexivity.
Qed.

Lemma existsb_all_false : forall {A} (f : A -> bool) l,
  Forall (fun a => f a = false) l -> existsb f l = false.
Proof.
  intros A f l H. induction H as [|a l Ha _ IH]; [reflexivity|].
  simpl. rewrite Ha, IH. reflexivity.
Qed.

Lemma forallb_false_Exists : forall {A} (f : A -> bool) l,
  forallb f l = false <-> Exists (fun a => f a = false) l.
Proof.
  intros A f l. induction l as [|a l IH]; simpl.
  - split; [discriminate | intros H; inversion H].
  - rewrite Exists_cons, <- IH. destruct (f a); simpl; intuition congruence.
Qed.

Lemma split_nonempty_input : forall cfg x,
  x <> [] -> 0 < maxUnitSize cfg ->
  split cfg x = inr (split_from cfg x (List.length x) 0 0 0).
Proof.
  intros cfg x Hx Hm. unfold split.
  destruct x as [|a x']; [contradiction|].
  destruct (Nat.eqb_spec (maxUnitSize cfg) 0); [lia | reflexivity].
Qed.

(** Claim C4: for a request that passes validation (with a registry
    whose last descriptor is deterministic and deterministic engines that
    always succeed), [handle] answers [FullSuccess] exactly when every
    chunk was served by the top-priority descriptor, [DegradedSuccess]
    exactly when some chunk fell back, and never [Failed]; a top engine
    that always succeeds gives [FullSuccess], one that always fails
    gives [DegradedSuccess]. *)
Theorem handle_status :
  forall (cfg : ChunkConfig) (reg : EngineRegistry) (beh : EngineBehaviour)
         (req : CapabilityRequest),
    0 < maxUnitSize cfg ->
    terminal_deterministic (enginesFor reg (req_capability req)) ->
    deterministic_engines_succeed beh ->
    validate req = true ->
    exists res log,
      handle cfg reg beh req = (inr res, log) /\
      res_status res <> Failed /\
      (res_status res = FullSuccess <->
         Forall (fun r => served_by_top r = true) (res_outcomes res)) /\
      (res_status res = DegradedSuccess <->
         Exists (fun r => served_by_top r = false) (res_outcomes res)) /\
      ((forall d, hd_error (enginesFor reg (req_capability req)) = Some d ->
          forall u, u <> [] -> attempt_succeeds (attempt beh d u) = true) ->
       res_status res = FullSuccess) /\
      ((forall d, hd_error (enginesFor reg (req_capability req)) = Some d ->
          forall u, attempt_succeeds (attempt beh d u) = false) ->
       res_status res = DegradedSuccess).
Proof.
  intros cfg reg beh [cap x src tgt] Hm Hterm Hdet Hval.
  simpl req_capability in *.
  assert (Hx : x <> []) by (destruct x; [discriminate | discriminate]).
  unfold handle. rewrite Hval. simpl negb. cbv iota. simpl req_input.
  rewrite (split_nonempty_input cfg x Hx Hm). cbn [req_capability].
  set (spans := split_from cfg x (List.length x) 0 0 0).
  assert (Hlen : 0 < List.length x) by (destruct x; [contradiction | simpl; lia]).
  destruct (split_from_spans_wf cfg x (List.length x) 0 0 0 Hm Hlen ltac:(lia))
    as [Hne Hwf].
  fold spans in Hne, Hwf.
  pose proof (resolve_chunks_outcomes reg beh cap x spans) as Hout.
  destruct (resolve_chunks reg beh cap x spans) as [rs log]. simpl in Hout.
  set (ds := enginesFor reg cap) in *.
  unfold terminal_deterministic in Hterm.
  destruct (rev ds) as [|dl rl] eqn:Erev; [contradiction|].
  assert (Hdl : In dl ds) by (apply in_rev; rewrite Erev; left; reflexivity).
  destruct ds as [|d0 rest] eqn:Eds; [discriminate|].
  assert (Hserved : Forall (fun r => is_exhausted r = false) (map snd rs)).
  { rewrite Hout. apply Forall_map. eapply Forall_impl; [|exact Hwf].
    intros sp Hsp. unfold resolve. fold ds. rewrite Eds.
    apply resolve_from_not_exhausted;
      [exact Hdet | apply chunk_text_nonempty, Hsp | exists dl; split; assumption]. }
  assert (Htop : forall sp,
            served_by_top (fst (resolve reg beh cap (cs_index sp) (chunk_text x sp))) =
            attempt_succeeds (attempt beh d0 (chunk_text x sp))).
  { intros sp. unfold resolve. fold ds. rewrite Eds. apply resolve_from_top. }
  exists (mkResult (overall_status (map snd rs)) (merge (served_parts rs))
                   (provenance rs) (map snd rs)), log.
  split; [reflexivity|]. simpl res_status. simpl res_outcomes.
  unfold overall_status. rewrite (existsb_all_false _ _ Hserved).
  repeat split.
  - destruct (forallb served_by_top (map snd rs)); discriminate.
  - intros H. destruct (forallb served_by_top (map snd rs)) eqn:E; [|discriminate].
    apply Forall_forall. apply forallb_forall. exact E.
  - intros H. rewrite Forall_forall, <- forallb_forall in H. rewrite H. reflexivity.
  - intros H. destruct (forallb served_by_top (map snd rs)) eqn:E; [discriminate|].
    apply forallb_false_Exists. exact E.
  - intros H. apply forallb_false_Exists in H. rewrite H. reflexivity.
  - intros Hall. replace (forallb served_by_top (map snd rs)) with true; [reflexivity|].
    symmetry. apply forallb_forall. rewrite Hout. intros r Hr.
    apply in_map_iff in Hr. destruct Hr as [sp [<- Hsp]].
    rewrite Htop. apply (Hall d0 eq_refl).
    apply chunk_text_nonempty. rewrite Forall_forall in Hwf. exact (Hwf sp Hsp).
  - intros Hnone. replace (forallb served_by_top (map snd rs)) with false; [reflexivity|].
    symmetry. apply forallb_false_Exists. rewrite Hout.
    destruct spans as [|sp0 more]; [contradiction|].
    simpl. left. rewrite Htop. apply (Hnone d0 eq_refl).
Qed.

(** A summarization registry: a model-backed engine, then the
    deterministic extractive summarizer. *)
Definition sample_registry : EngineRegistry :=
  [mkDescriptor Summarize 1 "extractive" 1000 true;
   mkDescriptor Summarize 0 "distilbart" 5000 false].

(** The model never answers; the extractive summarizer echoes at once. *)
Definition sample_behaviour : EngineBehaviour :=
  fun d u =>
    if ed_isDeterministic d then mkRun (Some 0) (Success u (ed_engine d))
    else mkRun None (Success u (ed_engine d)).

Definition sample_request : CapabilityRequest :=
  mkRequest Summarize (list_ascii_of_string "A short text to summarize.") None None.

Lemma handle_status_witness :
  0 < maxUnitSize (mkChunkConfig 1000 0) /\
  terminal_deterministic (enginesFor sample_registry (req_capability sample_request)) /\
  deterministic_engines_succeed sample_behaviour /\
  validate sample_request = true /\
  exists res log,
    handle (mkChunkConfig 1000 0) sample_registry sample_behaviour sample_request =
      (inr res, log) /\
    res_status res <> Failed /\
    (res_status res = FullSuccess <->
       Forall (fun r => served_by_top r = true) (res_outcomes res)) /\
    (res_status res = DegradedSuccess <->
       Exists (fun r => served_by_top r = false) (res_outcomes res)) /\
    ((forall d, hd_error (enginesFor sample_registry (req_capability sample_request)) = Some d ->
        forall u, u <> [] -> attempt_succeeds (attempt sample_behaviour d u) = true) ->
     res_status res = FullSuccess) /\
    ((forall d, hd_error (enginesFor sample_registry (req_capability sample_request)) = Some d ->
        forall u, attempt_succeeds (attempt sample_behaviour d u) = false) ->
     res_status res = DegradedSuccess).
Proof.
  assert (H1 : 0 < maxUnitSize (mkChunkConfig 1000 0)) by (simpl; lia).
  assert (H2 : terminal_deterministic
                 (enginesFor sample_registry (req_capability sample_request)))
    by (vm_compute; reflexivity).
  assert (H3 : deterministic_engines_succeed sample_behaviour).
  { intros d u Hd _. unfold attempt, attempt_timed, sample_behaviour.
    rewrite Hd. simpl. eexists; eexists; reflexivity. }
  assert (H4 : validate sample_request = true) by (vm_compute; reflexivity).
  split; [exact H1 | split; [exact H2 | split; [exact H3 | split; [exact H4|]]]].
  exact (handle_status _ _ _ _ H1 H2 H3 H4).
Defined.

Example sample_request_degraded :
  option_map res_status
    (match fst (handle (mkChunkConfig 1000 0) sample_registry sample_behaviour sample_request) with
     | inr r => Some r
     | inl _ => None
     end) = Some DegradedSuccess.
Proof. vm_compute. reflexivity. Qed.

(* ================================================================= *)
(** ** Part III: further properties of the front-end code *)
(* ================================================================= *)

(* ----------------------------------------------------------------- *)
(** *** Notifications *)

(** Removing the id of a notification just shown drops it again and
    leaves the earlier notifications as they were, provided none of them
    carried the same timestamp id. *)
Theorem remove_after_show :
  forall (ns : list Notification) (now : Z) (message type : string) (duration : Z),
    (forall n, In n ns -> n_id n <> now) ->
    removeNotification now (showNotification now message type duration ns) = ns.
Proof.
  intros ns now message type duration Hfresh.
  unfold removeNotification, showNotification.
  rewrite filter_app. simpl. rewrite Z.eqb_refl. simpl. rewrite app_nil_r.
  induction ns as [|n ns IH]; [reflexivity|]. simpl.
  destruct (Z.eqb_spec (n_id n) now) as [E|E].
  - exfalso. exact (Hfresh n (or_introl eq_refl) E).
  - simpl. f_equal. apply IH. intros m Hm. apply Hfresh. right. exact Hm.
Qed.

Lemma remove_after_show_witness :
  (forall n, In n [mkNotification 1 "Saved" "success" 5000] -> n_id n <> 2%Z) /\
  removeNotification 2 (showNotification 2 "Copied to clipboard!" "success" 2000
                          [mkNotification 1 "Saved" "success" 5000]) =
  [mkNotification 1 "Saved" "success" 5000].
Proof.
  assert (H : forall n, In n [mkNotification 1 "Saved" "success" 5000] -> n_id n <> 2%Z).
  { intros n [<-|[]]. simpl. discriminate. }
  split; [exact H | exact (remove_after_show _ _ _ _ _ H)].
Defined.

(** Two notifications shown within the same millisecond share their id:
    the removal scheduled for either one removes both from the array. *)
Theorem remove_same_millisecond :
  forall (ns : list Notification) (now : Z) (m1 t1 m2 t2 : string) (d1 d2 : Z),
    removeNotification now
      (showNotification now m2 t2 d2 (showNotification now m1 t1 d1 ns)) =
    removeNotification now ns.
Proof.
  intros. unfold removeNotification, showNotification.
  rewrite !filter_app. simpl. rewrite Z.eqb_refl. simpl. rewrite !app_nil_r. reflexivity.
Qed.

(* ----------------------------------------------------------------- *)
(** *** Loading state *)

Lemma spinner_html_nonempty : forall t, spinner_html t <> EmptyString.
Proof. intros t. unfold spinner_html, nl. simpl. discriminate. Qed.

(** [hideLoadingState] undoes [showLoadingState] on an element whose
    content is not empty: the content comes back, the element is enabled
    and the saved copy is deleted. *)
Theorem hide_after_show_restores :
  forall (e : LoadElement) (loadingText : string),
    le_innerHTML e <> EmptyString ->
    hideLoadingState (showLoadingState (Some e) loadingText) =
    Some (mkLoadElement (le_innerHTML e) false None).
Proof.
  intros e t Hne. simpl.
  destruct (String.eqb_spec (le_innerHTML e) "") as [E|E]; [contradiction | reflexivity].
Qed.

Lemma hide_after_show_restores_witness :
  "Summarize"%string <> EmptyString /\
  hideLoadingState (showLoadingState (Some (mkLoadElement "Summarize" false None)) "Loading...") =
  Some (mkLoadElement "Summarize" false None).
Proof.
  assert (H : le_innerHTML (mkLoadElement "Summarize" false None) <> EmptyString)
    by (simpl; discriminate).
  split; [exact H | exact (hide_after_show_restores _ _ H)].
Defined.

(** On an element with empty content, [hideLoadingState] after
    [showLoadingState] does nothing: the spinner stays and the element
    stays disabled. *)
Theorem hide_after_show_empty_stays_loading :
  forall (e : LoadElement) (loadingText : string),
    le_innerHTML e = EmptyString ->
    hideLoadingState (showLoadingState (Some e) loadingText) =
    Some (mkLoadElement (spinner_html loadingText) true (Some EmptyString)).
Proof. intros e t He. simpl. rewrite He. reflexivity. Qed.

Lemma hide_after_show_empty_stays_loading_witness :
  le_innerHTML (mkLoadElement "" false None) = EmptyString /\
  hideLoadingState (showLoadingState (Some (mkLoadElement "" false None)) "Loading...") =
  Some (mkLoadElement (spinner_html "Loading...") true (Some EmptyString)).
Proof.
  assert (H : le_innerHTML (mkLoadElement "" false None) = EmptyString) by reflexivity.
  split; [exact H | exact (hide_after_show_empty_stays_loading _ _ H)].
Defined.

(** Showing the loading state twice loses the original content: the
    following [hideLoadingState] puts back the first spinner. *)
Theorem show_twice_loses_content :
  forall (e : LoadElement) (t1 t2 : string),
    hideLoadingState (showLoadingState (showLoadingState (Some e) t1) t2) =
    Some (mkLoadElement (spinner_html t1) false None).
Proof.
  intros e t1 t2. simpl.
  destruct (String.eqb_spec (spinner_html t1) "") as [E|E].
  - exfalso. exact (spinner_html_nonempty t1 E).
  - reflexivity.
Qed.

(* ----------------------------------------------------------------- *)
(** *** Theme persistence *)

Lemma storage_get_set : forall k v st, storage_get k (storage_set k v st) = Some v.
Proof. intros. unfold storage_get, storage_set. simpl. rewrite String.eqb_refl. reflexivity. Qed.

(** After [ThemeManager.toggleTheme], either [<html>] has
    [data-theme="dark"] and ['dark'] is saved, or it has no [data-theme]
    and ['light'] is saved; a second toggle leaves [data-theme="dark"]
    exactly when it was there at the start. *)
Theorem tm_toggleTheme_state :
  forall d : ThemeDoc,
    ((html_data_theme (tm_toggleTheme d) = Some "dark"%string /\
      storage_get "autocomm-theme" (tm_storage (tm_toggleTheme d)) = Some "dark"%string) \/
     (html_data_theme (tm_toggleTheme d) = None /\
      storage_get "autocomm-theme" (tm_storage (tm_toggleTheme d)) = Some "light"%string)) /\
    html_data_theme (tm_toggleTheme (tm_toggleTheme d)) =
      match html_data_theme d with
      | Some t => if String.eqb t "dark" then Some "dark"%string else None
      | None => None
      end.
Proof.
  intros [h i st]. unfold tm_toggleTheme, tm_setTheme. simpl.
  destruct h as [t|]; [destruct (String.eqb t "dark") eqn:Ht|]; simpl;
    rewrite storage_get_set; auto.
Qed.

(** The theme chosen with [ThemeManager.toggleTheme] survives a reload:
    [loadTheme] on any page sharing the same [localStorage] sets the
    same [data-theme] attribute. *)
Theorem tm_theme_survives_reload :
  forall d page : ThemeDoc,
    tm_storage page = tm_storage (tm_toggleTheme d) ->
    html_data_theme (tm_loadTheme page) = html_data_theme (tm_toggleTheme d).
Proof.
  intros [h i st] page Hst. unfold tm_loadTheme. rewrite Hst.
  unfold tm_toggleTheme, tm_setTheme. cbn [html_data_theme tm_storage].
  destruct h as [t|]; [destruct (String.eqb t "dark")|]; cbn [tm_storage];
    rewrite storage_get_set; reflexivity.
Qed.

Lemma tm_theme_survives_reload_witness :
  tm_storage (mkThemeDoc (Some "dark"%string) None [("autocomm-theme", "dark")]%string) =
    tm_storage (tm_toggleTheme (mkThemeDoc None (Some "fas fa-moon"%string) [])) /\
  html_data_theme (tm_loadTheme (mkThemeDoc (Some "dark"%string) None [("autocomm-theme", "dark")]%string)) =
    html_data_theme (tm_toggleTheme (mkThemeDoc None (Some "fas fa-moon"%string) [])).
Proof.
  assert (H : tm_storage (mkThemeDoc (Some "dark"%string) None [("autocomm-theme", "dark")]%string) =
              tm_storage (tm_toggleTheme (mkThemeDoc None (Some "fas fa-moon"%string) [])))
    by reflexivity.
  split; [exact H | exact (tm_theme_survives_reload _ _ H)].
Defined.

(** The theme chosen with main.js's [toggleTheme] survives a reload:
    [initializeTheme] on a page sharing the same [localStorage] restores
    [currentTheme] and the body's [data-theme]. *)
Theorem initializeTheme_after_toggle :
  forall s page : PageState,
    local_storage page = local_storage (toggleTheme s) ->
    currentTheme (initializeTheme page) = currentTheme (toggleTheme s) /\
    body_data_theme (initializeTheme page) = body_data_theme (toggleTheme s).
Proof.
  intros s page Hst. unfold initializeTheme. rewrite Hst.
  unfold toggleTheme, applyTheme. cbn [local_storage currentTheme body_data_theme].
  destruct (String.eqb (currentTheme s) "light"); rewrite storage_get_set;
    simpl; auto.
Qed.

Lemma initializeTheme_after_toggle_witness :
  local_storage (mkPage "light"%string None None [("autocomm-theme", "dark")]%string) =
    local_storage (toggleTheme (mkPage "light"%string (Some "light"%string) (Some "fas fa-moon"%string) [])) /\
  currentTheme (initializeTheme (mkPage "light"%string None None [("autocomm-theme", "dark")]%string)) =
    currentTheme (toggleTheme (mkPage "light"%string (Some "light"%string) (Some "fas fa-moon"%string) [])) /\
  body_data_theme (initializeTheme (mkPage "light"%string None None [("autocomm-theme", "dark")]%string)) =
    body_data_theme (toggleTheme (mkPage "light"%string (Some "light"%string) (Some "fas fa-moon"%string) [])).
Proof.
  assert (H : local_storage (mkPage "light"%string None None [("autocomm-theme", "dark")]%string) =
              local_storage (toggleTheme (mkPage "light"%string (Some "light"%string) (Some "fas fa-moon"%string) [])))
    by reflexivity.
  split; [exact H | exact (initializeTheme_after_toggle _ _ H)].
Defined.

(* ----------------------------------------------------------------- *)
(** *** Form validation *)










(* ----------------------------------------------------------------- *)
(** *** File upload *)










(* ----------------------------------------------------------------- *)
(** *** Email validation *)

Lemma nullable_spec : forall r, nullable r = true <-> in_lang r [].
Proof.
  induction r as [| |p|r1 IH1 r2 IH2|r1 IH1 r2 IH2|r IH]; simpl; split; intros H.
  - discriminate.
  - inversion H.
  - constructor.
  - reflexivity.
  - discriminate.
  - inversion H.
  - apply orb_true_iff in H. destruct H as [H|H];
      [apply L_altl, IH1 | apply L_altr, IH2]; exact H.
  - inversion H; subst; apply orb_true_iff; [left; apply IH1 | right; apply IH2]; assumption.
  - apply andb_true_iff in H. destruct H as [H1 H2].
    exact (L_cat r1 r2 [] [] (proj1 IH1 H1) (proj1 IH2 H2)).
  - inversion H as [| | | |? ? w1 w2 Hw1 Hw2| |]; subst.
    match goal with E : _ ++ _ = [] |- _ => apply app_eq_nil in E; destruct E; subst end.
    apply andb_true_iff. split; [apply IH1 | apply IH2]; assumption.
  - constructor.
  - reflexivity.
Qed.

Lemma deriv_sound : forall a r w, in_lang (deriv a r) w -> in_lang r (a :: w).
Proof.
  intros a r. induction r as [| |p|r1 IH1 r2 IH2|r1 IH1 r2 IH2|r IH]; simpl; intros w H.
  - inversion H.
  - inversion H.
  - destruct (p a) eqn:Hp; inversion H; subst. exact (L_class p a Hp).
  - inversion H; subst; [apply L_altl, IH1 | apply L_altr, IH2]; assumption.
  - destruct (nullable r1) eqn:N.
    + inversion H as [| |? ? ? Hl|? ? ? Hr| | |]; subst.
      * inversion Hl as [| | | |? ? w1 w2 Hw1 Hw2| |]; subst.
        exact (L_cat r1 r2 (a :: w1) w2 (IH1 _ Hw1) Hw2).
      * exact (L_cat r1 r2 [] (a :: w) (proj1 (nullable_spec r1) N) (IH2 _ Hr)).
    + inversion H as [| | | |? ? w1 w2 Hw1 Hw2| |]; subst.
      exact (L_cat r1 r2 (a :: w1) w2 (IH1 _ Hw1) Hw2).
  - inversion H as [| | | |? ? w1 w2 Hw1 Hw2| |]; subst.
    exact (L_starS r (a :: w1) w2 (IH _ Hw1) Hw2).
Qed.

Lemma deriv_complete :
  forall r u, in_lang r u -> forall a w, u = a :: w -> in_lang (deriv a r) w.
Proof.
  induction 1 as [|p b Hp|r1 r2 u H IH|r1 r2 u H IH|r1 r2 w1 w2 H1 IH1 H2 IH2
                  |r|r w1 w2 H1 IH1 H2 IH2]; intros a w E.
  - discriminate.
  - injection E as <- <-. simpl. rewrite Hp. constructor.
  - simpl. apply L_altl. exact (IH a w E).
  - simpl. apply L_altr. exact (IH a w E).
  - simpl. destruct w1 as [|c w1'].
    + simpl in E. rewrite (proj2 (nullable_spec r1) H1).
      apply L_altr. exact (IH2 a w E).
    + injection E as <- <-.
      destruct (nullable r1);
        [apply L_altl|]; apply L_cat; [exact (IH1 c w1' eq_refl) | exact H2 | exact (IH1 c w1' eq_refl) | exact H2].
  - discriminate.
  - destruct w1 as [|c w1'].
    + simpl in E. exact (IH2 a w E).
    + injection E as <- <-. simpl. apply L_cat; [exact (IH1 c w1' eq_refl) | exact H2].
Qed.

(** The derivative matcher decides the language. *)
Lemma matches_correct : forall w r, matches r w = true <-> in_lang r w.
Proof.
  induction w as [|a w IH]; intros r; simpl.
  - apply nullable_spec.
  - rewrite IH. split; [apply deriv_sound | intros H; exact (deriv_complete _ _ H a w eq_refl)].
Qed.

Lemma star_class_iff :
  forall p w, in_lang (RStar (RClass p)) w <-> Forall (fun c => p c = true) w.
Proof.
  intros p w. split.
  - intros H. remember (RStar (RClass p)) as r eqn:Er.
    induction H as [| | | | |r0|r0 w1 w2 H1 _ H2 IH2]; try discriminate.
    + constructor.
    + injection Er as ->. inversion H1; subst. constructor; [assumption | apply IH2; reflexivity].
  - induction 1 as [|c w Hc Hw IH]; [constructor|].
    exact (L_starS _ [c] w (L_class p c Hc) IH).
Qed.

Lemma plus_class_iff :
  forall p w, in_lang (RPlus (RClass p)) w <-> w <> [] /\ Forall (fun c => p c = true) w.
Proof.
  intros p w. unfold RPlus. split.
  - intros H. inversion H as [| | | |? ? w1 w2 Hw1 Hw2| |]; subst.
    inversion Hw1; subst. apply star_class_iff in Hw2.
    split; [discriminate | constructor; assumption].
  - intros [Hne Hf]. destruct w as [|c w]; [contradiction|].
    inversion Hf; subst.
    exact (L_cat _ _ [c] w (L_class p c ltac:(assumption)) (proj2 (star_class_iff p w) ltac:(assumption))).
Qed.

Lemma class_inv : forall p w, in_lang (RClass p) w -> exists c, w = [c] /\ p c = true.
Proof. intros p w H. inversion H; subst. eauto. Qed.

Lemma cat_inv : forall r1 r2 w, in_lang (RCat r1 r2) w ->
  exists w1 w2, w = w1 ++ w2 /\ in_lang r1 w1 /\ in_lang r2 w2.
Proof. intros r1 r2 w H. inversion H; subst. eauto. Qed.

Lemma not_space_at_ok : forall c, not_space_at c = true <-> email_char_ok c.
Proof.
  intros c. unfold not_space_at, email_char_ok.
  rewrite andb_true_iff, !negb_true_iff.
  destruct (Ascii.eqb_spec c "@"%char) as [E|E]; split; intros [H1 H2]; auto; congruence.
Qed.

Lemma forall_not_space_at :
  forall w, Forall (fun c => not_space_at c = true) w <-> Forall email_char_ok w.
Proof.
  intros w. rewrite !Forall_forall. split; intros H c Hc; apply not_space_at_ok; auto.
Qed.

(** The words of the email pattern. *)
Lemma email_lang_iff :
  forall w, in_lang email_regex w <->
    exists a b c, w = a ++ "@"%char :: b ++ "."%char :: c /\
      a <> [] /\ b <> [] /\ c <> [] /\
      Forall email_char_ok a /\ Forall email_char_ok b /\ Forall email_char_ok c.
Proof.
  intros w. unfold email_regex. split.
  - intros H.
    destruct (cat_inv _ _ _ H) as (a & w2 & -> & Ha & H2).
    destruct (cat_inv _ _ _ H2) as (w3 & w4 & -> & Hat & H4).
    destruct (class_inv _ _ Hat) as (x & -> & Hx).
    destruct (cat_inv _ _ _ H4) as (b & w5 & -> & Hb & H5).
    destruct (cat_inv _ _ _ H5) as (w6 & c & -> & Hdot & Hc).
    destruct (class_inv _ _ Hdot) as (y & -> & Hy).
    apply Ascii.eqb_eq in Hx, Hy. subst x y.
    apply plus_class_iff in Ha, Hb, Hc.
    rewrite forall_not_space_at in Ha, Hb, Hc.
    exists a, b, c. intuition.
  - intros (a & b & c & -> & Ha & Hb & Hc & Fa & Fb & Fc).
    rewrite <- forall_not_space_at in Fa, Fb, Fc.
    apply L_cat; [apply plus_class_iff; auto|].
    apply (L_cat _ _ ["@"%char]); [constructor; reflexivity|].
    apply L_cat; [apply plus_class_iff; auto|].
    apply (L_cat _ _ ["."%char]); [constructor; reflexivity|].
    apply plus_class_iff; auto.
Qed.

(** [isValidEmail(email)] holds exactly when [email] is a non-empty
    local part, ['@'], a non-empty domain part, ['.'] and a non-empty
    last part, none of them containing ['@'] or white space (the last
    ['.'] may be any of the dots after the ['@']). *)
Theorem isValidEmail_iff :
  forall email : string,
    isValidEmail email = true <->
    exists a b c, list_ascii_of_string email = a ++ "@"%char :: b ++ "."%char :: c /\
      a <> [] /\ b <> [] /\ c <> [] /\
      Forall email_char_ok a /\ Forall email_char_ok b /\ Forall email_char_ok c.
Proof. intros email. unfold isValidEmail. rewrite matches_correct. apply email_lang_iff. Qed.

Lemma count_at_ok : forall w, Forall email_char_ok w -> count_occ ascii_dec w "@"%char = 0.
Proof.
  induction 1 as [|c w [_ Hc] _ IH]; simpl; [reflexivity|].
  destruct (ascii_dec c "@"%char); [contradiction | exact IH].
Qed.

(** An address accepted by [isValidEmail] has exactly one ['@'], no
    white space, and at least three characters after the ['@']. *)
Theorem isValidEmail_one_at :
  forall email : string,
    isValidEmail email = true ->
    count_occ ascii_dec (list_ascii_of_string email) "@"%char = 1 /\
    Forall (fun c => regex_space c = false) (list_ascii_of_string email) /\
    exists a rest, list_ascii_of_string email = a ++ "@"%char :: rest /\ 3 <= List.length rest.
Proof.
  intros email H. unfold isValidEmail in H. rewrite matches_correct, email_lang_iff in H.
  destruct H as (a & b & c & E & Ha & Hb & Hc & Fa & Fb & Fc). rewrite E.
  split; [|split].
  - rewrite count_occ_app. simpl. rewrite count_occ_app. simpl.
    rewrite (count_at_ok _ Fa), (count_at_ok _ Fb), (count_at_ok _ Fc).
    destruct (ascii_dec "@"%char "@"%char) as [_|n]; [|contradiction n; reflexivity].
    destruct (ascii_dec "."%char "@"%char) as [e|_]; [discriminate e | reflexivity].
  - assert (G : forall w, Forall email_char_ok w -> Forall (fun c => regex_space c = false) w)
      by (intros w; apply Forall_impl; intros x [Hx _]; exact Hx).
    apply Forall_app. split; [apply G, Fa|]. constructor; [reflexivity|].
    apply Forall_app. split; [apply G, Fb|]. constructor; [reflexivity | apply G, Fc].
  - exists a, (b ++ "."%char :: c). split; [reflexivity|].
    rewrite length_app. simpl.
    destruct b; [contradiction|]. destruct c; [contradiction|]. simpl. lia.
Qed.

Lemma isValidEmail_one_at_witness :
  isValidEmail "a@b.." = true /\
  count_occ ascii_dec (list_ascii_of_string "a@b..") "@"%char = 1 /\
  Forall (fun c => regex_space c = false) (list_ascii_of_string "a@b..") /\
  exists a rest, list_ascii_of_string "a@b.." = a ++ "@"%char :: rest /\ 3 <= List.length rest.
Proof.
  assert (H : isValidEmail "a@b.." = true) by (vm_compute; reflexivity).
  split; [exact H | exact (isValidEmail_one_at _ H)].
Defined.

(* ----------------------------------------------------------------- *)
(** *** [formatText] is idempotent *)









Lemma title_case_from_empty : forall s b, title_case_from b s = EmptyString -> s = EmptyString.
Proof.
  intros [|c r] b H; [reflexivity|]. simpl in H.
  destruct b; [destruct (is_js_space c)|destruct (is_word_char c)]; discriminate.
Qed.



Lemma title_case_from_length :
  forall s b, String.length (title_case_from b s) = String.length s.
Proof.
  induction s as [|c r IH]; intros b; [reflexivity|]. simpl.
  destruct b; [destruct (is_js_space c)|destruct (is_word_char c)]; simpl; rewrite IH; reflexivity.
Qed.

















(* ----------------------------------------------------------------- *)
(** *** [formatFileSize] at the ends of its range *)

Lemma sf_eqb_eq : forall x y, sf_eqb x y = true -> x = y.
Proof.
  intros [a|a| |a m e] [b|b| |b m' e'] H; simpl in H; try discriminate; try reflexivity.
  - apply Bool.eqb_prop in H. subst. reflexivity.
  - apply Bool.eqb_prop in H. subst. reflexivity.
  - apply andb_true_iff in H. destruct H as [H H3]. apply andb_true_iff in H.
    destruct H as [H1 H2]. apply Bool.eqb_prop in H1. apply Pos.eqb_eq in H2.
    apply Z.eqb_eq in H3. subst. reflexivity.
Qed.

Lemma size_text_eqb_eq : forall x y, size_text_eqb x y = true -> x = y.
Proof.
  intros [n l] [n' l'] H. unfold size_text_eqb in H. simpl in H.
  apply andb_true_iff in H. destruct H as [H1 H2].
  apply sf_eqb_eq in H1. apply String.eqb_eq in H2. subst. reflexivity.
Qed.

(** Both [formatFileSize] implementations show a size of 1 to 1023
    bytes as that very number of ['Bytes']. *)
Theorem formatFileSize_small_bytes :
  forall bytes : Z, (1 <= bytes < 1024)%Z ->
    formatFileSize_main bytes = mkSizeText (js_of_Z bytes) "Bytes" /\
    formatFileSize_utils bytes = mkSizeText (js_of_Z bytes) "Bytes".
Proof.
  intros bytes Hb.
  assert (Hall : forallb (fun n =>
            size_text_eqb (formatFileSize_main (Z.of_nat n)) (mkSizeText (js_of_Z (Z.of_nat n)) "Bytes") &&
            size_text_eqb (formatFileSize_utils (Z.of_nat n)) (mkSizeText (js_of_Z (Z.of_nat n)) "Bytes"))
            (seq 1 1023) = true) by (vm_compute; reflexivity).
  rewrite forallb_forall in Hall.
  specialize (Hall (Z.to_nat bytes) ltac:(apply in_seq; lia)).
  rewrite Z2Nat.id in Hall by lia.
  apply andb_true_iff in Hall. destruct Hall as [H1 H2].
  split; apply size_text_eqb_eq; assumption.
Qed.

Lemma formatFileSize_small_bytes_witness :
  (1 <= 512 < 1024)%Z /\
  formatFileSize_main 512 = mkSizeText (js_of_Z 512) "Bytes" /\
  formatFileSize_utils 512 = mkSizeText (js_of_Z 512) "Bytes".
Proof.
  assert (H : (1 <= 512 < 1024)%Z) by lia.
  split; [exact H | exact (formatFileSize_small_bytes 512 H)].
Defined.



